(** * Content pipeline and blog listing of the digital-agency site

    A shallow embedding of
    - [content-collections.ts] (the collection configuration: schema and
      transform of the [posts] collection), together with its compiled copy,
    - [src/app/blog/page.jsx] (the blog listing page: search, category
      filter, featured section and article grid),
    and the properties of the content pipeline stated over them. *)

From Stdlib Require Import Ascii String.
From stdpp Require Import base option list strings gmap.

Set Warnings "-register-all".

Local Open Scope string_scope.
Local Open Scope stdpp_scope.
Local Open Scope list_scope.

(** ** Values of front matter and of JavaScript objects *)

(** A YAML front-matter value, which is also the JavaScript value the
    parser hands to the schema. [undefined] is not a value: an absent key
    is an absent binding of the enclosing object, and a possibly undefined
    value is an [option Value]. *)
Inductive Value : Type :=
| VNull
| VBool (b : bool)
| VNum (n : Z)
| VStr (s : string)
| VArr (items : list Value)
| VObj (fields : list (string * Value)).

(** A JavaScript object used as a record: a finite map from keys to values. *)
Abbreviation Obj := (gmap string Value).

(** ** The part of zod that the schema uses *)

Inductive ZodParsedType : Type :=
| ty_undefined | ty_null | ty_boolean | ty_number | ty_string | ty_array
| ty_object.

Definition getParsedType (data : option Value) : ZodParsedType :=
  match data with
  | None => ty_undefined
  | Some VNull => ty_null
  | Some (VBool _) => ty_boolean
  | Some (VNum _) => ty_number
  | Some (VStr _) => ty_string
  | Some (VArr _) => ty_array
  | Some (VObj _) => ty_object
  end.

Inductive PathSeg : Type :=
| Key (k : string)
| Index (i : nat).

(** An [invalid_type] issue, the only kind the types below can raise. *)
Record ZodIssue : Type := mkIssue {
  issue_path : list PathSeg;
  expected : ZodParsedType;
  received : ZodParsedType
}.

Definition type_name (t : ZodParsedType) : string :=
  match t with
  | ty_undefined => "undefined"
  | ty_null => "null"
  | ty_boolean => "boolean"
  | ty_number => "number"
  | ty_string => "string"
  | ty_array => "array"
  | ty_object => "object"
  end.

Definition issue_message (i : ZodIssue) : string :=
  match received i with
  | ty_undefined => "Required"
  | r => "Expected " +:+ type_name (expected i) +:+ ", received " +:+ type_name r
  end.

Inductive ZodType : Type :=
| ZodString
| ZodBoolean
| ZodArray (element : ZodType)
| ZodOptional (innerType : ZodType)
| ZodDefault (innerType : ZodType) (defaultValue : Value).

(** The outcome of parsing one value: the parsed value (possibly
    [undefined]) or the issues found. *)
Inductive ParseReturn : Type :=
| Valid (value : option Value)
| Invalid (issues : list ZodIssue).

Definition invalid_type (path : list PathSeg) (e : ZodParsedType)
    (input : option Value) : ParseReturn :=
  Invalid [mkIssue path e (getParsedType input)].

(** Merge of the element results of an array: every element is parsed and
    all issues are kept. *)
Fixpoint mergeArray (rs : list ParseReturn) : list ZodIssue * list Value :=
  match rs with
  | [] => ([], [])
  | r :: rs' =>
      let '(errs, vs) := mergeArray rs' in
      match r with
      | Valid (Some v) => (errs, v :: vs)
      | Valid None => (errs, vs)
      | Invalid errs0 => (errs0 ++ errs, vs)
      end
  end.

Fixpoint _parse (t : ZodType) (path : list PathSeg) (input : option Value)
    : ParseReturn :=
  match t with
  | ZodString =>
      match input with
      | Some (VStr s) => Valid (Some (VStr s))
      | _ => invalid_type path ty_string input
      end
  | ZodBoolean =>
      match input with
      | Some (VBool b) => Valid (Some (VBool b))
      | _ => invalid_type path ty_boolean input
      end
  | ZodArray element =>
      match input with
      | Some (VArr items) =>
          match mergeArray
                  (imap (fun i v => _parse element (path ++ [Index i]) (Some v))
                        items) with
          | ([], vs) => Valid (Some (VArr vs))
          | (errs, _) => Invalid errs
          end
      | _ => invalid_type path ty_array input
      end
  | ZodOptional innerType =>
      match input with
      | None => Valid None
      | _ => _parse innerType path input
      end
  | ZodDefault innerType defaultValue =>
      match input with
      | None => _parse innerType path (Some defaultValue)
      | _ => _parse innerType path input
      end
  end.

(** The schema builder [z] as the configuration writes it. *)
Module z.
Definition string : ZodType := ZodString.
Definition boolean : ZodType := ZodBoolean.
Definition array (element : ZodType) : ZodType := ZodArray element.
Definition optional (t : ZodType) : ZodType := ZodOptional t.
Definition default (t : ZodType) (v : Value) : ZodType := ZodDefault t v.
End z.

(** The shape of an object schema: the keys in the order of the object
    literal. *)
Abbreviation Shape := (list (string * ZodType)).

Inductive SafeParseReturn : Type :=
| Success (data : Obj)
| Failure (issues : list ZodIssue).

(** One key of the shape. A key is set in the output when its parsed value
    is not [undefined]; keys of the input outside the shape are dropped. *)
Definition parseKey (data : Obj) (acc : list ZodIssue * Obj)
    (kt : string * ZodType) : list ZodIssue * Obj :=
  let '(errs, out) := acc in
  let '(k, t) := kt in
  match _parse t [Key k] (data !! k) with
  | Valid (Some v) => (errs, <[k := v]> out)
  | Valid None => (errs, out)
  | Invalid errs0 => (errs ++ errs0, out)
  end.

Definition parseShape (shape : Shape) (data : Obj) : list ZodIssue * Obj :=
  foldl (parseKey data) ([], ∅) shape.

Definition safeParse (shape : Shape) (data : Obj) : SafeParseReturn :=
  match parseShape shape data with
  | ([], out) => Success out
  | (errs, _) => Failure errs
  end.

(** ** Documents of a collection *)

(** The [_meta] object the collection builder attaches to every document;
    [path] is the file's path relative to the collection directory, without
    its extension. *)
Record Meta : Type := mkMeta {
  filePath : string;
  fileName : string;
  meta_directory : string;
  extension : string;
  path : string
}.

(** A document as the transform receives it: the validated front matter,
    the body text and [_meta]. *)
Record Document : Type := mkDocument {
  data : Obj;
  content : string;
  _meta : Meta
}.

Definition metaValue (m : Meta) : Value :=
  VObj [("filePath", VStr (filePath m)); ("fileName", VStr (fileName m));
        ("directory", VStr (meta_directory m));
        ("extension", VStr (extension m)); ("path", VStr (path m))].

(** The object spread [...document]. *)
Definition spread (document : Document) : Obj :=
  <["_meta" := metaValue (_meta document)]>
    (<["content" := VStr (content document)]> (data document)).

(** What [defineCollection] receives. *)
Record Collection (Context : Type) : Type := defineCollection {
  name : string;
  directory : string;
  include : string;
  schema : Shape;
  transform : Document -> Context -> option Obj
}.
Arguments defineCollection {Context}.
Arguments name {Context}.
Arguments directory {Context}.
Arguments include {Context}.
Arguments schema {Context}.
Arguments transform {Context}.

(** ** [content-collections.ts] *)

Module ContentCollections.
Section Config.
(** [compileMDX] of [@content-collections/mdx]: the compiled body as a
    string, or a failure (the promise rejects). *)
Context {Context : Type}.
Variable compileMDX : Context -> Document -> option string.

Definition posts : Collection Context := defineCollection
  "posts"
  "content/posts"
  "**/*.mdx"
  [ ("title", z.string);
    ("description", z.string);
    ("date", z.string);
    ("author", z.string);
    ("category", z.string);
    ("tags", z.optional (z.array z.string));
    ("image", z.optional z.string);
    ("featured", z.default (z.optional z.boolean) (VBool false)) ]
  (fun document context =>
     mdx ← compileMDX context document;
     Some (<["url" := VStr ("/blog/" +:+ path (_meta document))]>
           (<["slug" := VStr (path (_meta document))]>
            (<["mdx" := VStr mdx]>
             (spread document))))).

Definition defineConfig : list (Collection Context) := [posts].
End Config.
End ContentCollections.

(** ** The compiled configuration (the bundled [content-collections.ts]) *)

Module Compiled.
Section Config.
Context {Context : Type}.
Variable compileMDX : Context -> Document -> option string.

Definition posts : Collection Context := defineCollection
  "posts"
  "content/posts"
  "**/*.mdx"
  [ ("title", z.string);
    ("description", z.string);
    ("date", z.string);
    ("author", z.string);
    ("category", z.string);
    ("tags", z.optional (z.array z.string));
    ("image", z.optional z.string);
    ("featured", z.default (z.optional z.boolean) (VBool false)) ]
  (fun document context =>
     mdx ← compileMDX context document;
     Some (<["url" := VStr ("/blog/" +:+ path (_meta document))]>
           (<["slug" := VStr (path (_meta document))]>
            (<["mdx" := VStr mdx]>
             (spread document))))).

Definition content_collections_default : list (Collection Context) := [posts].
End Config.
End Compiled.

(** ** The collection builder *)

Module Pipeline.

(** A content file after front-matter extraction: its [_meta], the
    key-value pairs of the front-matter block and the body text. *)
Record ArticleSource : Type := mkSource {
  source_meta : Meta;
  frontMatter : Obj;
  body : string
}.

Inductive ParseError : Type :=
| ValidationError (issues : list ZodIssue)
| CompilationError.

(** The published state: the collection in discovery order, and the
    (source path, error) pairs of the files that were skipped. *)
Record Published : Type := mkPublished {
  collection : list Obj;
  diagnostics : list (string * ParseError)
}.

Section Build.
Context {Context : Type}.
Variable config : Collection Context.
Variable context : Context.

(** Modelled from the spec: the per-file driver of the collection builder
    (it belongs to the content-collections package, not to the
    configuration file). The front matter is validated against the
    collection's schema; a failed validation is a [ValidationError]
    carrying the issues; otherwise the transform runs on the validated
    document and a failure of the body compilation is a
    [CompilationError]. *)
Definition parse (source : ArticleSource) : ParseError + Obj :=
  match safeParse (schema config) (frontMatter source) with
  | Failure issues => inl (ValidationError issues)
  | Success validated =>
      match transform config
              (mkDocument validated (body source) (source_meta source))
              context with
      | Some record => inr record
      | None => inl CompilationError
      end
  end.

(** Modelled from the spec: skip-and-report publication. Every source is
    parsed; records are aggregated in discovery order, and a source that
    fails is skipped and reported with its path. *)
Fixpoint publish (sources : list ArticleSource) : Published :=
  match sources with
  | [] => mkPublished [] []
  | source :: rest =>
      let published := publish rest in
      match parse source with
      | inr record =>
          mkPublished (record :: collection published)
                      (diagnostics published)
      | inl error =>
          mkPublished (collection published)
                      ((filePath (source_meta source), error)
                         :: diagnostics published)
      end
  end.
End Build.
End Pipeline.

(** ** JavaScript strings *)

(** A [string] is read as a sequence of code units below 256 (the Latin-1
    range), on which [toLowerCase] maps A-Z and the accented capitals
    U+00C0-U+00DE (U+00D7, the multiplication sign, excepted) to the code
    unit 32 above, and is the identity elsewhere. *)
Definition toLowerCaseUnit (c : ascii) : ascii :=
  let n := nat_of_ascii c in
  if (((65 <=? n) && (n <=? 90))
      || ((192 <=? n) && (n <=? 222) && negb (n =? 215)))%nat
  then ascii_of_nat (n + 32)
  else c.

Fixpoint toLowerCase (s : string) : string :=
  match s with
  | EmptyString => EmptyString
  | String c s' => String (toLowerCaseUnit c) (toLowerCase s')
  end.

(** [s.startsWith(t)] *)
Definition startsWith (s t : string) : bool := String.prefix t s.

(** [s.includes(t)]: [t] occurs in [s] at some position. *)
Fixpoint includes (s t : string) : bool :=
  startsWith s t ||
  match s with
  | EmptyString => false
  | String _ s' => includes s' t
  end.

(** ** [src/app/blog/page.jsx] *)

Module BlogPage.

(** A post as the page imports it from the generated collection: the
    fields of the record a page reads. Optional fields of the schema are
    options. *)
Record Post : Type := mkPost {
  title : string;
  description : string;
  date : string;
  author : string;
  category : string;
  tags : option (list string);
  image : option string;
  featured : bool;
  mdx : string;
  slug : string;
  url : string
}.

Section Page.
Variable allPosts : list Post.
(** The component state. *)
Variables searchTerm activeCategory : string.

Definition matchesSearch (post : Post) : bool :=
  includes (toLowerCase (title post)) (toLowerCase searchTerm)
  || includes (toLowerCase (description post)) (toLowerCase searchTerm).

Definition matchesCategory (post : Post) : bool :=
  bool_decide (activeCategory = "All")
  || bool_decide (category post = activeCategory).

Definition filteredPosts : list Post :=
  filter (fun post => matchesSearch post && matchesCategory post) allPosts.

Definition featuredPosts : list Post :=
  filter (fun post => featured post) allPosts.

(** The "Featured Article" section: [featuredPosts.slice(0, 1)], rendered
    when [featuredPosts] is not empty. *)
Definition featuredSection : list Post :=
  if (0 <? length featuredPosts)%nat then take 1 featuredPosts else [].

(** The article grid: [filteredPosts.filter((post) => !post.featured)]. *)
Definition blogGrid : list Post :=
  filter (fun post => negb (featured post)) filteredPosts.

(** The image shown for a post: [post.image || "/blog1.jpg"]. *)
Definition imageSrc (post : Post) : string :=
  match image post with
  | Some src => if bool_decide (src = "") then "/blog1.jpg" else src
  | None => "/blog1.jpg"
  end.

(** The tag badges of a grid card, [post.tags && post.tags.map(...)]:
    nothing is rendered when [tags] is undefined. *)
Definition tagBadges (post : Post) : option (list string) :=
  match tags post with
  | Some ts => Some ts
  | None => None
  end.
End Page.

(** The query helpers as the page provides them. Searching is the page's
    filter with no category selected; filtering by category is the same
    filter with the empty search term. *)
Definition search (collection : list Post) (term : string) : list Post :=
  filteredPosts collection term "All".

Definition byCategory (collection : list Post) (category : string)
    : list Post :=
  filteredPosts collection "" category.

(** Modelled from the spec: [related(collection, record, limit)], whose
    code (the article detail page) is not among the sources. It keeps the
    records sharing [record]'s category, drops [record] itself by slug
    equality and truncates to [limit], in collection order. *)
Definition related (collection : list Post) (record : Post) (limit : nat)
    : list Post :=
  take limit
    (filter
       (fun post =>
          bool_decide (category post = category record)
          && negb (bool_decide (slug post = slug record)))
       collection).


(** *** The generated [allPosts]

    The page imports the published records as posts; a record is read
    field by field at the types the schema declares. *)
Definition asString (v : Value) : option string :=
  match v with VStr s => Some s | _ => None end.

Definition asBoolean (v : Value) : option bool :=
  match v with VBool b => Some b | _ => None end.

Definition asStrings (v : Value) : option (list string) :=
  match v with VArr items => mapM asString items | _ => None end.

Definition field {A} (read : Value -> option A) (record : Obj)
    (key : string) : option A :=
  record !! key ≫= read.

Definition optionalField {A} (read : Value -> option A) (record : Obj)
    (key : string) : option (option A) :=
  match record !! key with
  | None => Some None
  | Some v => Some <$> read v
  end.

Definition asPost (record : Obj) : option Post :=
  title ← field asString record "title";
  description ← field asString record "description";
  date ← field asString record "date";
  author ← field asString record "author";
  category ← field asString record "category";
  tags ← optionalField asStrings record "tags";
  image ← optionalField asString record "image";
  featured ← field asBoolean record "featured";
  mdx ← field asString record "mdx";
  slug ← field asString record "slug";
  url ← field asString record "url";
  Some (mkPost title description date author category tags image featured
               mdx slug url).

Definition allPosts (published : Pipeline.Published) : list Post :=
  omap asPost (Pipeline.collection published).

End BlogPage.

(** A parsed value that is a string. *)
Definition isString (v : option Value) : Prop := ∃ s, v = Some (VStr s).

(** ** Reading the schema *)

(** A key is required when [undefined] is rejected, optional when
    [undefined] is accepted and kept, and defaulted when [undefined] is
    replaced by a value. *)
Definition onUndefined (t : ZodType) : ParseReturn := _parse t [] None.

Definition requiredFields (shape : Shape) : list string :=
  omap (fun kt => match onUndefined kt.2 with
                  | Invalid _ => Some kt.1
                  | Valid _ => None
                  end) shape.

Definition optionalFields (shape : Shape) : list string :=
  omap (fun kt => match onUndefined kt.2 with
                  | Valid None => Some kt.1
                  | _ => None
                  end) shape.

Definition defaultedFields (shape : Shape) : list (string * Value) :=
  omap (fun kt => match onUndefined kt.2 with
                  | Valid (Some v) => Some (kt.1, v)
                  | _ => None
                  end) shape.

(** ** The specification's wording of a search match *)

Module Spec.
End Spec.

(** ** Sample content *)

Module Sample.
(** A body compiler that succeeds on every document. *)
Definition compileMDX (context : unit) (document : Document)
    : option string :=
  Some (content document).

Definition posts : Collection unit := ContentCollections.posts compileMDX.

Definition meta (name : string) : Meta :=
  mkMeta (name +:+ ".mdx") (name +:+ ".mdx") "." "mdx" name.

(** The front matter of [content/posts/api-design-development.mdx]. *)
Definition apiDesignFrontMatter : Obj :=
  list_to_map
    [ ("title", VStr "The Complete Guide to API Design and Development");
      ("description",
       VStr "Master the art of designing and building robust APIs that power modern web applications.");
      ("date", VStr "2024-01-03");
      ("author", VStr "Alex Johnson");
      ("category", VStr "Backend Development");
      ("tags", VArr [VStr "API"; VStr "Backend"; VStr "Node.js"]);
      ("image", VStr "/blog1.jpg");
      ("featured", VBool false) ].

Definition apiDesign : Pipeline.ArticleSource :=
  Pipeline.mkSource (meta "api-design-development") apiDesignFrontMatter
    "# The Complete Guide to API Design and Development".

(** The same article with the optional keys left out. *)
Definition bare : Pipeline.ArticleSource :=
  Pipeline.mkSource (meta "api-design-development")
    (delete "featured" (delete "image" (delete "tags" apiDesignFrontMatter)))
    "# The Complete Guide to API Design and Development".

(** An article without its [author]. *)
Definition anonymous : Pipeline.ArticleSource :=
  Pipeline.mkSource (meta "anonymous")
    (delete "author" apiDesignFrontMatter) "# Anonymous".

Definition seoPost : BlogPage.Post :=
  BlogPage.mkPost "SEO Strategies That Actually Work in 2024"
    "Cut through the noise and learn the SEO strategies that are delivering real results for businesses today."
    "2024-01-08" "Emily Davis" "Digital Marketing"
    (Some ["SEO"; "Marketing"; "Analytics"]) (Some "/blog1.jpg") false
    "" "seo-strategies" "/blog/seo-strategies".

Definition designPost : BlogPage.Post :=
  BlogPage.mkPost "UI/UX Design Principles That Drive Conversions"
    "Learn how to design user interfaces that not only look great but also convert visitors into customers."
    "2024-01-12" "Sarah Chen" "Design"
    (Some ["UI/UX"; "Conversion"; "Design"]) (Some "/blog1.jpg") false
    "" "ui-ux-design-principles" "/blog/ui-ux-design-principles".

Definition featuredPost : BlogPage.Post :=
  BlogPage.mkPost "Design Systems" "How to keep a design consistent."
    "2024-02-01" "Sarah Chen" "Design" None None true
    "" "design-systems" "/blog/design-systems".
End Sample.

(** ** The state of the listing page *)

Module BlogPageState.
Import BlogPage.

(** [new Set(iterable)] as the sequence of its elements in insertion order:
    each element of the iterable is added in turn, and adding an element
    that is already there changes nothing. *)
Definition setAdd (set : list string) (x : string) : list string :=
  if bool_decide (x ∈ set) then set else set ++ [x].

Definition newSet (iterable : list string) : list string :=
  foldl setAdd [] iterable.

(** [["All", ...new Set(allPosts.map(post => post.category))]] *)
Definition categories (allPosts : list Post) : list string :=
  "All" :: newSet (category <$> allPosts).

(** The two [useState] cells of the component. *)
Record State : Type := mkState {
  searchTerm : string;
  activeCategory : string
}.

(** [useState("")] and [useState("All")]. *)
Definition initialState : State := mkState "" "All".

(** The search input's [onChange]: [setSearchTerm(e.target.value)]. *)
Definition setSearchTerm (value : string) (st : State) : State :=
  mkState value (activeCategory st).

(** A category button's [onClick]: [setActiveCategory(category)]. *)
Definition setActiveCategory (category : string) (st : State) : State :=
  mkState (searchTerm st) category.

(** The "Clear Filters" button: [setSearchTerm("")] and
    [setActiveCategory("All")]. *)
Definition clearFilters (st : State) : State :=
  setActiveCategory "All" (setSearchTerm "" st).

(** The filtered posts in a state. *)
Definition visiblePosts (allPosts : list Post) (st : State) : list Post :=
  filteredPosts allPosts (searchTerm st) (activeCategory st).

(** The grid in a state. *)
Definition visibleGrid (allPosts : list Post) (st : State) : list Post :=
  blogGrid allPosts (searchTerm st) (activeCategory st).

(** The "No articles found" block, with its "Clear Filters" button, is
    rendered when [filteredPosts.length === 0]. *)
Definition noArticlesFound (allPosts : list Post) (st : State) : bool :=
  (length (visiblePosts allPosts st) =? 0)%nat.

(** The variant of a category button:
    [category === activeCategory ? "default" : "outline"]. *)
Definition buttonVariant (category : string) (st : State) : string :=
  if bool_decide (category = activeCategory st) then "default" else "outline".

(** What the user can do in a state: type in the search input, click one of
    the rendered category buttons, or click "Clear Filters" where it is
    rendered. *)
Inductive step (allPosts : list Post) : State -> State -> Prop :=
| step_search st value :
    step allPosts st (setSearchTerm value st)
| step_category st category :
    category ∈ categories allPosts ->
    step allPosts st (setActiveCategory category st)
| step_clear st :
    noArticlesFound allPosts st = true ->
    step allPosts st (clearFilters st).

Definition reachable (allPosts : list Post) (st : State) : Prop :=
  rtc (step allPosts) initialState st.

End BlogPageState.

(** * Properties of the schema validator *)

Section Zod.
Implicit Types (t : ZodType) (shape : Shape) (data out : Obj).

Lemma _parse_Invalid_nonempty t path input errs :
  _parse t path input = Invalid errs → errs ≠ [].
Proof.
  revert path input.
  induction t as [| |el IH|inner IH|inner IH d]; intros path input; simpl.
  - destruct input as [[]|]; by inversion 1.
  - destruct input as [[]|]; by inversion 1.
  - destruct input as [[| | | |items|]|]; try by inversion 1.
    destruct (mergeArray _) as [[|e es] vs]; by inversion 1.
  - destruct input; [apply IH | by inversion 1].
  - destruct input; apply IH.
Qed.

Lemma foldl_parseKey_issues data shape errs out :
  ∃ more,
    (foldl (parseKey data) (errs, out) shape).1 = errs ++ more
    ∧ ∀ k t errs0, (k, t) ∈ shape →
        _parse t [Key k] (data !! k) = Invalid errs0 → errs0 ⊆ more.
Proof.
  revert errs out.
  induction shape as [|[k t] shape IH]; intros errs out; simpl.
  - exists []. rewrite app_nil_r. split; [done|].
    intros ??? Hin. by apply elem_of_nil in Hin.
  - destruct (_parse t [Key k] (data !! k)) as [[v|]|errs1] eqn:Hk.
    + destruct (IH errs (<[k:=v]> out)) as (more & -> & Hmore).
      exists more. split; [done|].
      intros k' t' errs0 [[= -> ->]|Hin]%elem_of_cons; [congruence|eauto].
    + destruct (IH errs out) as (more & -> & Hmore).
      exists more. split; [done|].
      intros k' t' errs0 [[= -> ->]|Hin]%elem_of_cons; [congruence|eauto].
    + destruct (IH (errs ++ errs1) out) as (more & -> & Hmore).
      exists (errs1 ++ more). split; [by rewrite app_assoc|].
      intros k' t' errs0 [[= -> ->]|Hin]%elem_of_cons.
      * rewrite Hk. intros [= ->] x Hx. apply elem_of_app. by left.
      * intros Hp x Hx. apply elem_of_app. right. by eapply Hmore.
Qed.

Lemma foldl_parseKey_other data shape errs out k :
  k ∉ shape.*1 →
  (foldl (parseKey data) (errs, out) shape).2 !! k = out !! k.
Proof.
  revert errs out.
  induction shape as [|[k' t] shape IH]; intros errs out Hk; simpl; [done|].
  apply not_elem_of_cons in Hk as [Hne Hk]. simpl in Hne.
  destruct (_parse t [Key k'] (data !! k')) as [[v|]|errs1];
    rewrite IH; try done.
  by rewrite lookup_insert_ne.
Qed.

Lemma foldl_parseKey_lookup data shape errs out k t v :
  NoDup shape.*1 → (k, t) ∈ shape →
  _parse t [Key k] (data !! k) = Valid v →
  (foldl (parseKey data) (errs, out) shape).2 !! k
  = match v with Some x => Some x | None => out !! k end.
Proof.
  revert errs out.
  induction shape as [|[k' t'] shape IH]; intros errs out Hnd Hin Hp.
  { by apply elem_of_nil in Hin. }
  simpl in Hnd. apply NoDup_cons in Hnd as [Hfresh Hnd].
  apply elem_of_cons in Hin as [[= <- <-]|Hin]; simpl.
  - rewrite Hp. destruct v as [x|];
      rewrite foldl_parseKey_other; try done.
    by rewrite lookup_insert_eq.
  - assert (k ≠ k') as Hne.
    { intros ->. apply Hfresh. apply list_elem_of_fmap. by exists (k', t). }
    destruct (_parse t' [Key k'] (data !! k')) as [[v'|]|errs1];
      rewrite IH; try done.
    destruct v; [done|]. by rewrite lookup_insert_ne.
Qed.

Lemma safeParse_Failure_iff shape data :
  (∃ issues, safeParse shape data = Failure issues ∧ issues ≠ []
             ∧ (parseShape shape data).1 = issues)
  ∨ (∃ out, safeParse shape data = Success out
            ∧ parseShape shape data = ([], out)).
Proof.
  unfold safeParse. destruct (parseShape shape data) as [[|e es] out].
  - right. by exists out.
  - left. by exists (e :: es).
Qed.

(** An invalid key makes the whole parse fail, with that key's issues
    among the reported ones. *)
Lemma safeParse_invalid_key shape data k t errs0 :
  (k, t) ∈ shape →
  _parse t [Key k] (data !! k) = Invalid errs0 →
  ∃ issues, safeParse shape data = Failure issues ∧ errs0 ⊆ issues.
Proof.
  intros Hin Hp.
  destruct (foldl_parseKey_issues data shape [] ∅) as (more & Hfst & Hmore).
  fold (parseShape shape data) in Hfst. simpl in Hfst.
  pose proof (Hmore _ _ _ Hin Hp) as Hsub.
  destruct (safeParse_Failure_iff shape data)
    as [(issues & -> & _ & Hi)|(out & _ & Hout)].
  - exists issues. split; [done|]. by rewrite <- Hi, Hfst.
  - rewrite Hout in Hfst. simpl in Hfst. subst more.
    apply _parse_Invalid_nonempty in Hp.
    destruct errs0 as [|e es]; [done|].
    specialize (Hsub e). ospecialize (Hsub _); [by left|].
    by apply elem_of_nil in Hsub.
Qed.

(** On success every key of the shape parsed, and the output binds the
    key to its parsed value (no binding when that is [undefined]). *)
Lemma safeParse_Success_lookup shape data out k t :
  NoDup shape.*1 → (k, t) ∈ shape →
  safeParse shape data = Success out →
  _parse t [Key k] (data !! k) = Valid (out !! k).
Proof.
  intros Hnd Hin Hs.
  destruct (_parse t [Key k] (data !! k)) as [v|errs0] eqn:Hp.
  - destruct (safeParse_Failure_iff shape data)
      as [(issues & Hf & _)|(out' & Hs' & Hout)]; [congruence|].
    assert (out' = out) as -> by congruence.
    pose proof (foldl_parseKey_lookup data shape [] ∅ k t v Hnd Hin Hp) as Hl.
    fold (parseShape shape data) in Hl. rewrite Hout in Hl. simpl in Hl.
    rewrite Hl. by destruct v.
  - destruct (safeParse_invalid_key shape data k t errs0 Hin Hp)
      as (issues & Hf & _). congruence.
Qed.

Lemma safeParse_Success_strip shape data out k :
  k ∉ shape.*1 → safeParse shape data = Success out → out !! k = None.
Proof.
  intros Hk Hs.
  destruct (safeParse_Failure_iff shape data)
    as [(issues & Hf & _)|(out' & Hs' & Hout)]; [congruence|].
  assert (out' = out) as -> by congruence.
  pose proof (foldl_parseKey_other data shape [] ∅ k Hk) as Hl.
  fold (parseShape shape data) in Hl. by rewrite Hout in Hl.
Qed.
End Zod.

(** * Properties of strings *)

Section Strings.
Implicit Types s t : string.


Lemma append_empty_l t : "" +:+ t = t.
Proof. reflexivity. Qed.




Lemma includes_empty s : includes s "" = true.
Proof. by destruct s. Qed.



End Strings.

(** * Properties of the [posts] collection *)

Section Posts.
Context {Context : Type}.
Variable compileMDX : Context -> Document -> option string.
Variable context : Context.

Local Abbreviation posts := (ContentCollections.posts compileMDX).

Lemma posts_keys_NoDup : NoDup (schema posts).*1.
Proof. apply (bool_decide_unpack _). by vm_compute. Qed.

(** The transform copies the document and sets [mdx], [slug] and [url]. *)
Lemma transform_Some document record :
  transform posts document context = Some record →
  ∃ mdx,
    compileMDX context document = Some mdx
    ∧ record
      = <["url" := VStr ("/blog/" +:+ path (_meta document))]>
          (<["slug" := VStr (path (_meta document))]>
             (<["mdx" := VStr mdx]> (spread document))).
Proof.
  simpl. destruct (compileMDX context document) as [mdx|]; simpl; [|done].
  intros [= <-]. by exists mdx.
Qed.

Lemma transform_keeps_data document record key :
  key ∉ ["url"; "slug"; "mdx"; "_meta"; "content"] →
  transform posts document context = Some record →
  record !! key = data document !! key.
Proof.
  intros Hkey (mdx & _ & ->)%transform_Some. unfold spread.
  rewrite !lookup_insert_ne; [done|intros <-; apply Hkey..].
  all: repeat constructor.
Qed.

Lemma parse_inr source record :
  Pipeline.parse posts context source = inr record →
  ∃ validated,
    safeParse (schema posts) (Pipeline.frontMatter source) = Success validated
    ∧ transform posts
        (mkDocument validated (Pipeline.body source)
           (Pipeline.source_meta source)) context = Some record.
Proof.
  unfold Pipeline.parse.
  destruct (safeParse _ _) as [validated|issues]; [|done].
  destruct (transform _ _ _) as [r|] eqn:Ht; [|done].
  intros [= <-]. by exists validated.
Qed.

Lemma schema_keys_kept key t :
  (key, t) ∈ schema posts →
  key ∉ ["url"; "slug"; "mdx"; "_meta"; "content"].
Proof.
  intros Hin Hkey.
  assert (key ∈ (schema posts).*1) as Hk.
  { apply list_elem_of_fmap. by exists (key, t). }
  revert Hkey Hk. simpl. rewrite !elem_of_cons, !elem_of_nil.
  intros Hbad Hk.
  destruct Hk as [->|[->|[->|[->|[->|[->|[->|[->|[]]]]]]]]];
    destruct Hbad as [?|[?|[?|[?|[?|[]]]]]]; done.
Qed.

(** A front-matter key of the schema, as the published record holds it. *)
Lemma parse_field source record key t :
  (key, t) ∈ schema posts →
  Pipeline.parse posts context source = inr record →
  _parse t [Key key] (Pipeline.frontMatter source !! key)
  = Valid (record !! key).
Proof.
  intros Hin (validated & Hs & Ht)%parse_inr.
  rewrite (transform_keeps_data _ _ key (schema_keys_kept _ _ Hin) Ht).
  simpl. eapply safeParse_Success_lookup; [apply posts_keys_NoDup|done..].
Qed.

(** The fields of a post are those of the record it is read from. *)
Lemma asPost_Some record post :
  BlogPage.asPost record = Some post →
  BlogPage.optionalField BlogPage.asStrings record "tags"
    = Some (BlogPage.tags post)
  ∧ BlogPage.field BlogPage.asBoolean record "featured"
    = Some (BlogPage.featured post)
  ∧ BlogPage.field BlogPage.asString record "slug"
    = Some (BlogPage.slug post)
  ∧ BlogPage.field BlogPage.asString record "url"
    = Some (BlogPage.url post).
Proof.
  unfold BlogPage.asPost.
  repeat match goal with
    | |- context [BlogPage.field ?read record ?k ≫= _] =>
        destruct (BlogPage.field read record k); simpl; [|done]
    | |- context [BlogPage.optionalField ?read record ?k ≫= _] =>
        destruct (BlogPage.optionalField read record k); simpl; [|done]
    end.
  by intros [= <-].
Qed.

(** C1 (as amended). When the front matter omits [tags], the published
    record has no [tags] field at all: the key is absent (undefined), not
    bound to an empty sequence. The post read from it has no tags and the
    listing page, which guards with [post.tags &&], renders no badges. *)
Theorem tags_omitted_absent source record :
  Pipeline.frontMatter source !! "tags" = None →
  Pipeline.parse posts context source = inr record →
  record !! "tags" = None
  ∧ ∀ post, BlogPage.asPost record = Some post →
      BlogPage.tags post = None ∧ BlogPage.tagBadges post = None.
Proof.
  intros Hnone Hparse.
  assert (record !! "tags" = None) as Habsent.
  { pose proof (parse_field source record "tags"
                  (z.optional (z.array z.string))) as Hf.
    rewrite Hnone in Hf. simpl in Hf.
    ospecialize (Hf _ Hparse); [repeat constructor|]. congruence. }
  split; [done|].
  intros post (Htags & _)%asPost_Some.
  unfold BlogPage.optionalField in Htags. rewrite Habsent in Htags.
  injection Htags as Htags. unfold BlogPage.tagBadges. by rewrite <- Htags.
Qed.

(** C5. When the front matter omits [featured], the published record
    binds [featured] to the boolean [false]; the post read from it has
    [featured = false], so no null check is needed. *)
Theorem featured_omitted_false source record :
  Pipeline.frontMatter source !! "featured" = None →
  Pipeline.parse posts context source = inr record →
  record !! "featured" = Some (VBool false)
  ∧ ∀ post, BlogPage.asPost record = Some post →
      BlogPage.featured post = false.
Proof.
  intros Hnone Hparse.
  assert (record !! "featured" = Some (VBool false)) as Hfalse.
  { pose proof (parse_field source record "featured"
                  (z.default (z.optional z.boolean) (VBool false))) as Hf.
    rewrite Hnone in Hf. simpl in Hf.
    ospecialize (Hf _ Hparse); [repeat constructor|]. congruence. }
  split; [done|].
  intros post (_ & Hfeat & _)%asPost_Some.
  unfold BlogPage.field in Hfeat. rewrite Hfalse in Hfeat. simpl in Hfeat.
  congruence.
Qed.

(** C3. A record the transform produces has [url] equal to the prefix
    ["/blog/"] followed by its [slug]; with the slug
    ["api-design-development"] the url is exactly
    ["/blog/api-design-development"]. *)
Theorem url_is_prefix_then_slug document record :
  transform posts document context = Some record →
  ∃ slug,
    record !! "slug" = Some (VStr slug)
    ∧ record !! "url" = Some (VStr ("/blog/" +:+ slug))
    ∧ (slug = "api-design-development" →
       record !! "url" = Some (VStr "/blog/api-design-development"))
    ∧ ∀ post, BlogPage.asPost record = Some post →
        BlogPage.slug post = slug
        ∧ BlogPage.url post = "/blog/" +:+ BlogPage.slug post.
Proof.
  intros (mdx & _ & ->)%transform_Some.
  exists (path (_meta document)).
  assert (∀ (m : Obj) (u s : Value),
            <["url" := u]> (<["slug" := s]> m) !! "slug" = Some s) as Hslug.
  { intros. by rewrite lookup_insert_ne, lookup_insert_eq. }
  rewrite Hslug, lookup_insert_eq.
  split_and!; [done..| |].
  - by intros ->.
  - intros post (_ & _ & Hs & Hu)%asPost_Some.
    unfold BlogPage.field in Hs, Hu.
    rewrite Hslug in Hs. rewrite lookup_insert_eq in Hu.
    simpl in Hs, Hu. by injection Hs as <-; injection Hu as <-.
Qed.
End Posts.

(** C1 as stated fails: the sample article without optional keys is
    published with no [tags] field, not with an empty sequence. *)
Lemma tags_omitted_not_empty_sequence :
  Pipeline.frontMatter Sample.bare !! "tags" = None
  ∧ ∃ record,
      Pipeline.parse Sample.posts tt Sample.bare = inr record
      ∧ record !! "tags" ≠ Some (VArr []).
Proof.
  split; [done|]. eexists. split; [by vm_compute|]. by vm_compute.
Qed.

Lemma tags_omitted_absent_witness :
  ∃ record,
    Pipeline.parse Sample.posts tt Sample.bare = inr record
    ∧ record !! "tags" = None.
Proof.
  eexists. split; [by vm_compute|].
  eapply proj1, (tags_omitted_absent Sample.compileMDX tt Sample.bare).
  - reflexivity.
  - by vm_compute.
Defined.

Lemma featured_omitted_false_witness :
  ∃ record,
    Pipeline.parse Sample.posts tt Sample.bare = inr record
    ∧ record !! "featured" = Some (VBool false).
Proof.
  eexists. split; [by vm_compute|].
  eapply proj1, (featured_omitted_false Sample.compileMDX tt Sample.bare).
  - reflexivity.
  - by vm_compute.
Defined.

Lemma url_is_prefix_then_slug_witness :
  ∃ record,
    Pipeline.parse Sample.posts tt Sample.apiDesign = inr record
    ∧ record !! "url" = Some (VStr "/blog/api-design-development").
Proof.
  eexists. split; [by vm_compute|].
  destruct (url_is_prefix_then_slug Sample.compileMDX tt
              (mkDocument Sample.apiDesignFrontMatter
                 (Pipeline.body Sample.apiDesign)
                 (Pipeline.source_meta Sample.apiDesign))
              _ eq_refl) as (slug & Hslug & _ & Hurl & _).
  apply Hurl. vm_compute in Hslug. congruence.
Defined.

(** * Published records are posts *)

Section Typed.
Context {Context : Type}.
Variable compileMDX : Context -> Document -> option string.
Variable context : Context.

Local Abbreviation posts := (ContentCollections.posts compileMDX).

Lemma _parse_string_Valid path input v :
  _parse z.string path input = Valid v → isString v.
Proof.
  destruct input as [[]|]; simpl; try by inversion 1.
  intros [= <-]. by eexists.
Qed.

Lemma _parse_boolean_Valid path input v :
  _parse z.boolean path input = Valid v → ∃ b, v = Some (VBool b).
Proof.
  destruct input as [[]|]; simpl; try by inversion 1.
  intros [= <-]. by eexists.
Qed.

Lemma _parse_optional t path input :
  _parse (z.optional t) path input
  = match input with
    | None => Valid None
    | Some _ => _parse t path input
    end.
Proof. done. Qed.

Lemma _parse_default t d path input :
  _parse (z.default t d) path input
  = match input with
    | None => _parse t path (Some d)
    | Some _ => _parse t path input
    end.
Proof. done. Qed.

Lemma mergeArray_strings rs vs :
  Forall (λ r, ∀ v, r = Valid v → isString v) rs →
  (mergeArray rs).2 = vs →
  Forall (λ v, is_Some (BlogPage.asString v)) vs.
Proof.
  intros Hrs. revert vs.
  induction Hrs as [|r rs Hr _ IH]; intros vs; simpl.
  - intros <-. constructor.
  - destruct (mergeArray rs) as [errs vs']. simpl in IH.
    destruct r as [[v|]|errs0]; simpl; intros <-; try by apply IH.
    constructor; [|by apply IH].
    destruct (Hr _ eq_refl) as [s [= ->]]. by eexists.
Qed.

Lemma _parse_strings_Valid path input v :
  _parse (z.array z.string) path input = Valid v →
  ∃ items, v = Some (VArr items)
           ∧ is_Some (BlogPage.asStrings (VArr items)).
Proof.
  destruct input as [[| | | |items|]|]; simpl; try by inversion 1.
  destruct (mergeArray _) as [[|e errs] vs] eqn:Hmerge; [|by inversion 1].
  intros [= <-]. exists vs. split; [done|].
  simpl. apply mapM_is_Some.
  eapply mergeArray_strings; [|by rewrite Hmerge].
  apply Forall_forall. intros r Hr v ->.
  apply elem_of_lookup_imap in Hr as (i & item & Hr & _).
  symmetry in Hr.
  by apply (_parse_string_Valid (path ++ [Index i]) (Some item)).
Qed.

(** Every record the pipeline publishes reads as a post. *)
Lemma parse_is_post source record :
  Pipeline.parse posts context source = inr record →
  is_Some (BlogPage.asPost record).
Proof.
  intros Hparse.
  pose proof (λ key t Hin, parse_field compileMDX context source record
                             key t Hin Hparse) as Hfield.
  assert (∀ key, (key, z.string) ∈ schema posts →
                 ∃ s, BlogPage.field BlogPage.asString record key = Some s)
    as Hstring.
  { intros key Hin. apply Hfield in Hin.
    apply _parse_string_Valid in Hin as [s Hs].
    exists s. unfold BlogPage.field. by rewrite Hs. }
  destruct (Hstring "title") as [title Htitle]; [repeat constructor|].
  destruct (Hstring "description") as [description Hdescription];
    [repeat constructor|].
  destruct (Hstring "date") as [date Hdate]; [repeat constructor|].
  destruct (Hstring "author") as [author Hauthor]; [repeat constructor|].
  destruct (Hstring "category") as [category Hcategory];
    [repeat constructor|].
  assert (is_Some (BlogPage.optionalField BlogPage.asStrings record "tags"))
    as [tags Htags].
  { pose proof (Hfield "tags" (z.optional (z.array z.string))) as Ht.
    ospecialize (Ht _); [repeat constructor|].
    unfold BlogPage.optionalField. rewrite _parse_optional in Ht.
    destruct (Pipeline.frontMatter source !! "tags") as [input|].
    - apply _parse_strings_Valid in Ht as (items & -> & [ts Hts]).
      rewrite Hts. by eexists.
    - injection Ht as <-. by eexists. }
  assert (is_Some (BlogPage.optionalField BlogPage.asString record "image"))
    as [image Himage].
  { pose proof (Hfield "image" (z.optional z.string)) as Ht.
    ospecialize (Ht _); [repeat constructor|].
    unfold BlogPage.optionalField. rewrite _parse_optional in Ht.
    destruct (Pipeline.frontMatter source !! "image") as [input|].
    - apply _parse_string_Valid in Ht as [s ->]. by eexists.
    - injection Ht as <-. by eexists. }
  assert (is_Some (BlogPage.field BlogPage.asBoolean record "featured"))
    as [featured Hfeatured].
  { pose proof (Hfield "featured"
                  (z.default (z.optional z.boolean) (VBool false))) as Ht.
    ospecialize (Ht _); [repeat constructor|].
    unfold BlogPage.field.
    rewrite _parse_default, _parse_optional in Ht.
    destruct (Pipeline.frontMatter source !! "featured") as [input|].
    - apply _parse_boolean_Valid in Ht as [b ->]. by eexists.
    - injection Ht as <-. by eexists. }
  apply parse_inr in Hparse as (validated & _ & Ht).
  apply transform_Some in Ht as (mdx & _ & ->).
  unfold BlogPage.asPost.
  rewrite Htitle, Hdescription, Hdate, Hauthor, Hcategory, Htags, Himage,
    Hfeatured.
  simpl. unfold BlogPage.field.
  rewrite lookup_insert_eq.
  rewrite (lookup_insert_ne _ "url" "slug"), lookup_insert_eq by done.
  rewrite (lookup_insert_ne _ "url" "mdx"),
    (lookup_insert_ne _ "slug" "mdx"), lookup_insert_eq by done.
  by eexists.
Qed.
End Typed.

(** * Properties of publication *)

Section Publish.
Context {Context : Type}.
Variable config : Collection Context.
Variable context : Context.

Local Abbreviation parse := (Pipeline.parse config context).
Local Abbreviation publish := (Pipeline.publish config context).

Lemma publish_app before after :
  Pipeline.collection (publish (before ++ after))
  = Pipeline.collection (publish before)
    ++ Pipeline.collection (publish after)
  ∧ Pipeline.diagnostics (publish (before ++ after))
    = Pipeline.diagnostics (publish before)
      ++ Pipeline.diagnostics (publish after).
Proof.
  induction before as [|source before [IHc IHd]]; [done|].
  simpl. destruct (parse source); simpl; by rewrite IHc, IHd.
Qed.

(** A record is published exactly when some source parses to it. *)
Lemma elem_of_collection sources record :
  record ∈ Pipeline.collection (publish sources)
  ↔ ∃ source, source ∈ sources ∧ parse source = inr record.
Proof.
  induction sources as [|source sources IH]; simpl.
  - split; [by intros ?%elem_of_nil|]. by intros (? & ?%elem_of_nil & _).
  - destruct (parse source) as [error|r] eqn:Hp; simpl.
    + rewrite IH. split.
      * intros (s & Hin & Hs). exists s. split; [by right|done].
      * intros (s & [->|Hin]%elem_of_cons & Hs); [congruence|by exists s].
    + rewrite elem_of_cons, IH. split.
      * intros [->|(s & Hin & Hs)].
        -- exists source. split; [by left|done].
        -- exists s. split; [by right|done].
      * intros (s & [->|Hin]%elem_of_cons & Hs).
        -- left. congruence.
        -- right. by exists s.
Qed.

(** A source that fails is skipped and reported; the rest is published
    as if the source were not there. *)
Lemma publish_skips before source after error :
  parse source = inl error →
  Pipeline.collection (publish (before ++ source :: after))
  = Pipeline.collection (publish (before ++ after))
  ∧ (filePath (Pipeline.source_meta source), error)
    ∈ Pipeline.diagnostics (publish (before ++ source :: after)).
Proof.
  intros Hp.
  destruct (publish_app before (source :: after)) as [Hc Hd].
  destruct (publish_app before after) as [Hc' _].
  rewrite Hc, Hd, Hc'. simpl. rewrite Hp. simpl. split; [done|].
  apply elem_of_app. right. by left.
Qed.
End Publish.

Section PostsPublish.
Context {Context : Type}.
Variable compileMDX : Context -> Document -> option string.
Variable context : Context.

Local Abbreviation posts := (ContentCollections.posts compileMDX).

(** C2. A source whose front matter lacks one of the required fields
    parses to a [ValidationError] with an issue naming that field
    ("Required" at the field's path) and not to a record; it is reported
    in the diagnostics and contributes nothing to the published
    collection, which is the one obtained without it; and every other
    source that parses to a record has that record published. *)
Theorem missing_required_field_skipped before source after field :
  field ∈ ["title"; "description"; "date"; "author"; "category"] →
  Pipeline.frontMatter source !! field = None →
  (∃ issues,
     Pipeline.parse posts context source
     = inl (Pipeline.ValidationError issues)
     ∧ mkIssue [Key field] ty_string ty_undefined ∈ issues
     ∧ issue_message (mkIssue [Key field] ty_string ty_undefined)
       = "Required"
     ∧ (filePath (Pipeline.source_meta source),
        Pipeline.ValidationError issues)
       ∈ Pipeline.diagnostics
           (Pipeline.publish posts context (before ++ source :: after)))
  ∧ Pipeline.collection
      (Pipeline.publish posts context (before ++ source :: after))
    = Pipeline.collection (Pipeline.publish posts context (before ++ after))
  ∧ ∀ other record,
      other ∈ before ++ after →
      Pipeline.parse posts context other = inr record →
      record
      ∈ Pipeline.collection
          (Pipeline.publish posts context (before ++ source :: after)).
Proof.
  intros Hfield Hnone.
  assert ((field, z.string) ∈ schema posts) as Hin.
  { rewrite !elem_of_cons, elem_of_nil in Hfield.
    destruct Hfield as [->|[->|[->|[->|[->|[]]]]]]; repeat constructor. }
  destruct (safeParse_invalid_key (schema posts)
              (Pipeline.frontMatter source) field z.string
              [mkIssue [Key field] ty_string ty_undefined] Hin)
    as (issues & Hfail & Hsub).
  { by rewrite Hnone. }
  assert (Pipeline.parse posts context source
          = inl (Pipeline.ValidationError issues)) as Hparse.
  { unfold Pipeline.parse. by rewrite Hfail. }
  destruct (publish_skips posts context before source after _ Hparse)
    as [Hcoll Hdiag].
  split_and!; [|done|].
  - exists issues. split_and!; [done| |done|done].
    apply Hsub. by left.
  - intros other record Hother Hrecord. rewrite Hcoll.
    apply elem_of_collection. by exists other.
Qed.
End PostsPublish.

Lemma missing_required_field_skipped_witness :
  ∃ issues,
    Pipeline.parse Sample.posts tt Sample.anonymous
    = inl (Pipeline.ValidationError issues)
    ∧ mkIssue [Key "author"] ty_string ty_undefined ∈ issues
    ∧ Pipeline.collection
        (Pipeline.publish Sample.posts tt
           ([Sample.apiDesign] ++ Sample.anonymous :: [Sample.bare]))
      = Pipeline.collection
          (Pipeline.publish Sample.posts tt ([Sample.apiDesign] ++ [Sample.bare])).
Proof.
  destruct (missing_required_field_skipped Sample.compileMDX tt
              [Sample.apiDesign] Sample.anonymous [Sample.bare] "author")
    as ((issues & Hparse & Hissue & _) & Hcoll & _).
  - repeat constructor.
  - reflexivity.
  - exists issues. by split_and!.
Defined.

(** * The compiled configuration *)

(** C9. The compiled configuration and the TypeScript configuration define
    the same pipeline: the same schema, hence the same required, optional
    and defaulted fields and the same validation result on every front
    matter; and transforms that agree on every document, in particular on
    the [slug] and [url] they set. *)
Theorem compiled_config_equivalent {Context : Type}
    (compileMDX : Context -> Document -> option string) :
  let compiled := Compiled.posts compileMDX in
  let source := ContentCollections.posts compileMDX in
  schema compiled = schema source
  ∧ requiredFields (schema compiled) = requiredFields (schema source)
  ∧ requiredFields (schema source)
    = ["title"; "description"; "date"; "author"; "category"]
  ∧ optionalFields (schema compiled) = optionalFields (schema source)
  ∧ optionalFields (schema source) = ["tags"; "image"]
  ∧ defaultedFields (schema compiled) = defaultedFields (schema source)
  ∧ defaultedFields (schema source) = [("featured", VBool false)]
  ∧ (∀ frontMatter,
       safeParse (schema compiled) frontMatter
       = safeParse (schema source) frontMatter)
  ∧ (∀ document context,
       transform compiled document context
       = transform source document context)
  ∧ (∀ document context,
       (record ← transform compiled document context;
        Some (record !! "slug", record !! "url"))
       = (record ← transform source document context;
          Some (record !! "slug", record !! "url")))
  ∧ Compiled.content_collections_default compileMDX
    = ContentCollections.defineConfig compileMDX.
Proof. intros compiled source. by split_and!. Qed.

(** * Properties of the blog listing page *)

Section Listing.
Import BlogPage.
Implicit Types (collection allPosts : list Post) (post : Post).
Implicit Types (term searchTerm activeCategory : string).

Lemma filter_all {A} (P : A → Prop) `{!∀ x, Decision (P x)} (l : list A) :
  (∀ x, x ∈ l → P x) → filter P l = l.
Proof.
  induction l as [|x l IH]; intros Hall; [done|].
  rewrite filter_cons_True by (apply Hall; by left).
  rewrite IH; [done|]. intros y Hy. apply Hall. by right.
Qed.


Lemma matchesSearch_empty post : matchesSearch "" post.
Proof. unfold matchesSearch. simpl. by rewrite includes_empty. Qed.

Lemma matchesCategory_All post : matchesCategory "All" post.
Proof. done. Qed.

Lemma matchesCategory_other activeCategory post :
  activeCategory ≠ "All" →
  matchesCategory activeCategory post ↔ category post = activeCategory.
Proof.
  intros Hne. unfold matchesCategory.
  rewrite orb_True, !bool_decide_spec. tauto.
Qed.

(** The page's filter is the search followed by the category filter. *)
Lemma filteredPosts_search_byCategory allPosts searchTerm activeCategory :
  filteredPosts allPosts searchTerm activeCategory
  = byCategory (search allPosts searchTerm) activeCategory.
Proof.
  unfold byCategory, search, filteredPosts.
  rewrite list_filter_filter. apply list_filter_iff. intros post.
  rewrite !andb_True.
  pose proof (matchesCategory_All post). pose proof (matchesSearch_empty post).
  tauto.
Qed.


(** C8. Searching for the empty string returns the collection itself. *)
Theorem search_empty_term collection : search collection "" = collection.
Proof.
  unfold search, filteredPosts. apply filter_all. intros post _.
  apply andb_True. split;
    [apply matchesSearch_empty|apply matchesCategory_All].
Qed.

(** C6 (as amended). For a category other than the reserved "All",
    filtering by category returns exactly the records whose [category] is
    that very string (an exact, case-sensitive comparison), in collection
    order; for "All" it returns the whole collection. *)
Theorem byCategory_exact_or_all collection cat :
  byCategory collection cat
  = if bool_decide (cat = "All") then collection
    else filter (λ post, category post = cat) collection.
Proof.
  unfold byCategory, filteredPosts. case_bool_decide as Hall.
  - subst cat. apply filter_all. intros post _.
    apply andb_True. split;
      [apply matchesSearch_empty|apply matchesCategory_All].
  - apply list_filter_iff. intros post.
    rewrite andb_True, matchesCategory_other by done.
    pose proof (matchesSearch_empty post). tauto.
Qed.

(** C10. A featured post is never in the article grid, whatever the
    search term and the active category, even when it passes the page's
    filter; the featured section shows featured posts only, so a featured
    post that the page shows is shown there. *)
Theorem featured_excluded_from_grid allPosts searchTerm activeCategory post :
  featured post = true →
  (post ∉ blogGrid allPosts searchTerm activeCategory)
  ∧ (post ∈ allPosts → matchesSearch searchTerm post →
     matchesCategory activeCategory post →
     post ∈ filteredPosts allPosts searchTerm activeCategory)
  ∧ (∀ shown, shown ∈ featuredSection allPosts →
       featured shown = true ∧ shown ∈ allPosts)
  ∧ (post ∈ featuredSection allPosts
              ++ blogGrid allPosts searchTerm activeCategory →
     post ∈ featuredSection allPosts).
Proof.
  intros Hfeatured.
  assert (post ∉ blogGrid allPosts searchTerm activeCategory) as Hgrid.
  { unfold blogGrid. rewrite list_elem_of_filter, negb_True, Hfeatured.
    simpl. tauto. }
  split_and!; [done| | |].
  - intros Hin Hs Hc. unfold filteredPosts.
    rewrite list_elem_of_filter, andb_True. done.
  - intros shown. unfold featuredSection, featuredPosts.
    destruct (0 <? _)%nat; [|by intros ?%elem_of_nil].
    intros Hshown%subseteq_take.
    apply list_elem_of_filter in Hshown as [Hf Hin].
    split; [by apply Is_true_true|done].
  - intros [?|?]%elem_of_app; done.
Qed.

End Listing.

(** C6 as stated fails at the category "All": a post of category "Design"
    is returned although its category is not "All". *)
Lemma byCategory_All_returns_other_categories :
  Sample.designPost ∈ BlogPage.byCategory [Sample.designPost] "All"
  ∧ BlogPage.category Sample.designPost ≠ "All".
Proof. split; [|done]. vm_compute. by left. Qed.


Lemma featured_excluded_from_grid_witness :
  Sample.featuredPost
  ∈ BlogPage.filteredPosts [Sample.featuredPost; Sample.designPost]
      "design" "Design"
  ∧ (Sample.featuredPost
     ∉ BlogPage.blogGrid [Sample.featuredPost; Sample.designPost]
         "design" "Design").
Proof.
  destruct (featured_excluded_from_grid
              [Sample.featuredPost; Sample.designPost] "design" "Design"
              Sample.featuredPost eq_refl) as (Hgrid & Hfiltered & _).
  split; [|exact Hgrid].
  apply Hfiltered; [by left|by vm_compute..].
Defined.

(** * The pipeline on the sample content *)

(** Of three sources, the one without an author is reported and the two
    others are published, in discovery order. *)
Example publish_sample :
  let published :=
    Pipeline.publish Sample.posts tt
      [Sample.apiDesign; Sample.anonymous; Sample.bare] in
  length (Pipeline.collection published) = 2
  ∧ Pipeline.diagnostics published
    = [("anonymous.mdx",
        Pipeline.ValidationError
          [mkIssue [Key "author"] ty_string ty_undefined])]
  ∧ BlogPage.tags <$> BlogPage.allPosts published
    = [Some ["API"; "Backend"; "Node.js"]; None]
  ∧ BlogPage.featured <$> BlogPage.allPosts published = [false; false]
  ∧ BlogPage.url <$> BlogPage.allPosts published
    = ["/blog/api-design-development"; "/blog/api-design-development"].
Proof. by vm_compute. Qed.

(** A wrongly typed value is reported at its path. *)
Example featured_must_be_boolean :
  safeParse (schema Sample.posts)
    (<["featured" := VStr "yes"]> Sample.apiDesignFrontMatter)
  = Failure [mkIssue [Key "featured"] ty_boolean ty_string].
Proof. by vm_compute. Qed.

(** The listing of the sample posts. *)
Example listing_sample :
  let allPosts := [Sample.featuredPost; Sample.seoPost; Sample.designPost] in
  BlogPage.search allPosts "seo" = [Sample.seoPost]
  ∧ BlogPage.byCategory allPosts "Design"
    = [Sample.featuredPost; Sample.designPost]
  ∧ BlogPage.byCategory allPosts "design" = []
  ∧ BlogPage.featuredSection allPosts = [Sample.featuredPost]
  ∧ BlogPage.blogGrid allPosts "" "All" = [Sample.seoPost; Sample.designPost]
  ∧ BlogPage.related allPosts Sample.designPost 3 = [Sample.featuredPost].
Proof. by vm_compute. Qed.

(** * Properties of the page state *)

Section PageState.
Import BlogPage BlogPageState.
Implicit Types (allPosts : list Post) (post : Post) (st : State).


Lemma toLowerCaseUnit_idemp c :
  toLowerCaseUnit (toLowerCaseUnit c) = toLowerCaseUnit c.
Proof. by destruct c as [[] [] [] [] [] [] [] []]. Qed.

Lemma toLowerCase_idemp s : toLowerCase (toLowerCase s) = toLowerCase s.
Proof.
  induction s as [|c s IH]; [done|].
  simpl. by rewrite toLowerCaseUnit_idemp, IH.
Qed.



Lemma foldl_setAdd_spec acc l :
  NoDup acc →
  NoDup (foldl setAdd acc l)
  ∧ (∀ x, x ∈ foldl setAdd acc l ↔ x ∈ acc ∨ x ∈ l)
  ∧ foldl setAdd acc l `sublist_of` acc ++ l.
Proof.
  revert acc. induction l as [|y l IH]; intros acc Hacc; simpl.
  - rewrite app_nil_r. split_and!; [done| |done].
    intros x. rewrite elem_of_nil. tauto.
  - unfold setAdd at 2 4 6. case_bool_decide as Hy.
    + destruct (IH acc Hacc) as (Hnd & Hin & Hsub).
      split_and!; [done| |].
      * intros x. rewrite Hin, elem_of_cons.
        split; [tauto|]. intros [?|[->|?]]; tauto.
      * etrans; [exact Hsub|].
        apply sublist_app; [done|by apply sublist_cons].
    + destruct (IH (acc ++ [y])) as (Hnd & Hin & Hsub).
      { apply NoDup_app. split_and!; [done| |apply NoDup_singleton].
        intros x Hx ->%list_elem_of_singleton. done. }
      split_and!; [done| |].
      * intros x. rewrite Hin, elem_of_app, list_elem_of_singleton,
          elem_of_cons. tauto.
      * by rewrite <- app_assoc in Hsub.
Qed.

Lemma newSet_spec l :
  NoDup (newSet l) ∧ (∀ x, x ∈ newSet l ↔ x ∈ l) ∧ newSet l `sublist_of` l.
Proof.
  destruct (foldl_setAdd_spec [] l) as (Hnd & Hin & Hsub);
    [apply NoDup_nil_2|].
  split_and!; [done| |done].
  intros x. rewrite (Hin x), elem_of_nil. tauto.
Qed.


(** X2. The button list has no repeated entry (no repeated React key) exactly
    when no post has the category "All". *)
Theorem categories_NoDup_iff allPosts :
  NoDup (categories allPosts)
  ↔ ∀ post, post ∈ allPosts → category post ≠ "All".
Proof.
  destruct (newSet_spec (category <$> allPosts)) as (Hnd & Hin & _).
  unfold categories. rewrite NoDup_cons, Hin, list_elem_of_fmap. split.
  - intros [Hall _] post Hpost Hc. apply Hall. by exists post.
  - intros Hall. split; [|done]. intros (post & Hc & Hpost).
    by apply (Hall post).
Qed.

Lemma category_button_posts allPosts c :
  c ∈ categories allPosts →
  filteredPosts allPosts "" c = [] → allPosts = [].
Proof.
  intros Hc Hempty.
  destruct allPosts as [|first rest]; [done|]. exfalso.
  apply elem_of_cons in Hc as [->|Hc].
  - eapply (filter_nil_not_elem_of _ _ first) in Hempty.
    + apply Hempty. by left.
    + apply andb_True. split;
        [apply matchesSearch_empty|apply matchesCategory_All].
  - destruct (newSet_spec (category <$> first :: rest)) as (_ & Hin & _).
    rewrite Hin in Hc.
    apply list_elem_of_fmap in Hc as (post & -> & Hpost).
    eapply (filter_nil_not_elem_of _ _ post) in Hempty; [done|].
    apply andb_True. split; [apply matchesSearch_empty|].
    unfold matchesCategory. apply orb_True. right.
    by apply bool_decide_spec.
Qed.

(** X3. With the empty search term, a rendered category button never leads to
    "No articles found", unless the collection itself is empty. *)
Theorem category_button_never_empty allPosts c :
  c ∈ categories allPosts →
  noArticlesFound allPosts (mkState "" c) = true ↔ allPosts = [].
Proof.
  intros Hc. unfold noArticlesFound, visiblePosts. simpl.
  rewrite Nat.eqb_eq. split.
  - intros Hlen%nil_length_inv. by eapply category_button_posts.
  - by intros ->.
Qed.

Lemma step_activeCategory allPosts st st' :
  step allPosts st st' →
  activeCategory st ∈ categories allPosts →
  activeCategory st' ∈ categories allPosts.
Proof.
  intros [st0 value|st0 c Hc|st0 _] Hin; simpl; [done..|by left].
Qed.

(** X4. Whatever the user does, the active category is one of the rendered
    buttons; and while the search input is empty, "No articles found" is
    shown only for an empty collection. *)
Theorem reachable_activeCategory allPosts st :
  reachable allPosts st →
  activeCategory st ∈ categories allPosts
  ∧ (searchTerm st = "" → noArticlesFound allPosts st = true →
     allPosts = []).
Proof.
  intros Hreach.
  assert (activeCategory st ∈ categories allPosts) as Hin.
  { apply (rtc_ind_r (λ st, activeCategory st ∈ categories allPosts)
             initialState (R := step allPosts)); [by left| |exact Hreach].
    intros y z _ Hstep IH. by eapply step_activeCategory. }
  split; [done|]. intros Hterm Hnone.
  unfold noArticlesFound, visiblePosts in Hnone. rewrite Hterm in Hnone.
  apply Nat.eqb_eq, nil_length_inv in Hnone.
  by eapply category_button_posts.
Qed.


(** X6. The letter case of the search term does not matter. *)
Theorem search_term_case_irrelevant allPosts term activeCategory :
  filteredPosts allPosts (toLowerCase term) activeCategory
  = filteredPosts allPosts term activeCategory.
Proof.
  unfold filteredPosts. apply list_filter_iff. intros post.
  unfold matchesSearch. by rewrite toLowerCase_idemp.
Qed.
End PageState.

Section PageView.
Import BlogPage BlogPageState.
Implicit Types (allPosts : list Post) (post : Post) (st : State).

Lemma filter_nil_iff {A} (P : A → Prop) `{!∀ x, Decision (P x)} (l : list A) :
  filter P l = [] ↔ ∀ x, x ∈ l → ¬ P x.
Proof.
  split.
  - intros Hnil x Hx HP. by eapply filter_nil_not_elem_of.
  - intros Hall. induction l as [|x l IH]; [done|].
    rewrite filter_cons_False by (apply Hall; by left).
    apply IH. intros y Hy. apply Hall. by right.
Qed.

(** X7. "No articles found" implies an empty grid, but not conversely: the
    grid is empty without that message exactly when there are results and
    all of them are featured. *)
Theorem empty_grid_without_message allPosts st :
  (noArticlesFound allPosts st = true → visibleGrid allPosts st = [])
  ∧ (visibleGrid allPosts st = [] ∧ noArticlesFound allPosts st = false
     ↔ visiblePosts allPosts st ≠ []
       ∧ ∀ post, post ∈ visiblePosts allPosts st → featured post = true).
Proof.
  unfold noArticlesFound, visibleGrid, blogGrid.
  fold (visiblePosts allPosts st).
  rewrite Nat.eqb_eq, Nat.eqb_neq, filter_nil_iff.
  assert (∀ post, ¬ negb (featured post) ↔ featured post = true) as Hneg.
  { intros post. destruct (featured post); simpl.
    - split; [done|intros _ []].
    - split; [intros H; by destruct H|done]. }
  split.
  - intros ->%nil_length_inv post Hpost. by apply elem_of_nil in Hpost.
  - split.
    + intros [Hall Hlen]. split.
      * intros Hnil. by rewrite Hnil in Hlen.
      * intros post Hpost. by apply Hneg, Hall.
    + intros [Hne Hall]. split.
      * intros post Hpost. by apply Hneg, Hall.
      * by destruct (visiblePosts allPosts st).
Qed.

(** X8. "Clear Filters" returns to the initial state, in which every post
    passes the filter and the grid holds all posts that are not featured. *)
Theorem clearFilters_shows_all allPosts st :
  clearFilters st = initialState
  ∧ visiblePosts allPosts (clearFilters st) = allPosts
  ∧ visibleGrid allPosts (clearFilters st)
    = filter (λ post, negb (featured post)) allPosts
  ∧ (noArticlesFound allPosts (clearFilters st) = true ↔ allPosts = []).
Proof.
  assert (visiblePosts allPosts (clearFilters st) = allPosts) as Hall.
  { unfold visiblePosts, filteredPosts. simpl. apply filter_all.
    intros post _. apply andb_True. split;
      [apply matchesSearch_empty|apply matchesCategory_All]. }
  split_and!; [done|done| |].
  - unfold visibleGrid, blogGrid.
    fold (visiblePosts allPosts (clearFilters st)). by rewrite Hall.
  - unfold noArticlesFound. rewrite Hall, Nat.eqb_eq.
    split; [apply nil_length_inv|by intros ->].
Qed.

(** X9. Of the featured posts only the first in collection order is ever
    displayed: a featured post shown by the page, in the featured section
    or in the grid, is the first featured post of the collection. *)
Theorem only_first_featured_shown allPosts searchTerm activeCategory post :
  featured post = true →
  post ∈ featuredSection allPosts
         ++ blogGrid allPosts searchTerm activeCategory →
  head (featuredPosts allPosts) = Some post
  ∧ (length (featuredSection allPosts) ≤ 1)%nat.
Proof.
  intros Hfeatured Hshown.
  assert (featuredSection allPosts = take 1 (featuredPosts allPosts)) as Hsec.
  { unfold featuredSection. by destruct (featuredPosts allPosts). }
  split.
  - apply elem_of_app in Hshown as [Hsection|Hgrid].
    + rewrite Hsec in Hsection.
      destruct (featuredPosts allPosts) as [|first rest];
        [by apply elem_of_nil in Hsection|].
      simpl in Hsection. apply list_elem_of_singleton in Hsection.
      by subst.
    + unfold blogGrid in Hgrid. apply list_elem_of_filter in Hgrid as [Hnot _].
      rewrite Hfeatured in Hnot. done.
  - rewrite Hsec, length_take. lia.
Qed.

(** X10. When no post is featured, the featured section is not rendered and the
    grid shows every post that passes the filter. *)
Theorem no_featured_grid_is_filtered allPosts searchTerm activeCategory :
  (∀ post, post ∈ allPosts → featured post = false) →
  featuredSection allPosts = []
  ∧ blogGrid allPosts searchTerm activeCategory
    = filteredPosts allPosts searchTerm activeCategory.
Proof.
  intros Hnone. split.
  - unfold featuredSection, featuredPosts.
    replace (filter _ allPosts) with (@nil Post); [done|].
    symmetry. apply filter_nil_iff. intros post Hpost.
    rewrite (Hnone post Hpost). intros [].
  - unfold blogGrid. apply filter_all. intros post Hpost.
    apply list_elem_of_filter in Hpost as [_ Hpost].
    by rewrite (Hnone post Hpost).
Qed.

(** X11. The image of a card is never the empty string: it is the post's own
    image when that is a non-empty string and the placeholder otherwise. *)
Theorem imageSrc_never_empty post :
  imageSrc post ≠ ""
  ∧ (∀ src, image post = Some src → src ≠ "" → imageSrc post = src)
  ∧ (image post = None ∨ image post = Some "" →
     imageSrc post = "/blog1.jpg").
Proof.
  unfold imageSrc. split_and!.
  - destruct (image post) as [src|]; [|done]. by case_bool_decide.
  - intros src -> Hsrc. by rewrite bool_decide_false.
  - by intros [->| ->].
Qed.

(** X12. In every reachable state exactly one category button is highlighted,
    provided no post has the category "All". *)
Theorem one_button_highlighted allPosts st :
  (∀ post, post ∈ allPosts → category post ≠ "All") →
  reachable allPosts st →
  length (filter (λ c, buttonVariant c st = "default") (categories allPosts))
  = 1%nat.
Proof.
  intros Hall Hreach.
  assert (NoDup (categories allPosts)) as Hnd.
  { destruct (newSet_spec (category <$> allPosts)) as (Hnd & Hin & _).
    unfold categories. rewrite NoDup_cons, Hin, list_elem_of_fmap.
    split; [|done]. intros (post & Hc & Hpost). by apply (Hall post). }
  assert (activeCategory st ∈ categories allPosts) as Hin.
  { apply (rtc_ind_r (λ st, activeCategory st ∈ categories allPosts)
             initialState (R := step allPosts)); [by left| |exact Hreach].
    intros y z _ Hstep IH. by eapply step_activeCategory. }
  assert (∀ c, buttonVariant c st = "default" ↔ c = activeCategory st) as Hv.
  { intros c. unfold buttonVariant. case_bool_decide; split; done. }
  revert Hnd Hin. generalize (categories allPosts) as cs.
  induction cs as [|c cs IH]; intros Hnd Hin; [by apply elem_of_nil in Hin|].
  apply NoDup_cons in Hnd as [Hc Hnd].
  rewrite filter_cons. destruct (decide _) as [Hd|Hd].
  - apply Hv in Hd. subst c. simpl. f_equal.
    replace (filter _ cs) with (@nil string); [done|].
    symmetry. apply filter_nil_iff. intros c' Hc' Hd'. apply Hv in Hd'.
    by subst c'.
  - apply IH; [done|].
    apply elem_of_cons in Hin as [Heq|Hin]; [|done].
    destruct Hd. by apply Hv.
Qed.
End PageView.

Lemma category_button_never_empty_witness :
  BlogPageState.noArticlesFound [Sample.seoPost; Sample.designPost]
    (BlogPageState.mkState "" "Design") = false.
Proof.
  destruct (BlogPageState.noArticlesFound [Sample.seoPost; Sample.designPost]
              (BlogPageState.mkState "" "Design")) eqn:Hshown; [|done].
  apply (category_button_never_empty [Sample.seoPost; Sample.designPost]
           "Design") in Hshown; [done|].
  vm_compute. right. right. by left.
Defined.

Lemma reachable_activeCategory_witness :
  BlogPageState.activeCategory
    (BlogPageState.setActiveCategory "Design"
       (BlogPageState.setSearchTerm "seo" BlogPageState.initialState))
  ∈ BlogPageState.categories [Sample.seoPost; Sample.designPost].
Proof.
  apply (reachable_activeCategory [Sample.seoPost; Sample.designPost]).
  eapply rtc_l; [apply (BlogPageState.step_search _ _ "seo")|].
  eapply rtc_l; [|apply rtc_refl].
  apply (BlogPageState.step_category _ _ "Design").
  vm_compute. right. right. by left.
Defined.

Lemma only_first_featured_shown_witness :
  head (BlogPage.featuredPosts [Sample.seoPost; Sample.featuredPost])
  = Some Sample.featuredPost.
Proof.
  apply (only_first_featured_shown [Sample.seoPost; Sample.featuredPost]
           "" "All" Sample.featuredPost eq_refl).
  vm_compute. by left.
Defined.

Lemma no_featured_grid_is_filtered_witness :
  BlogPage.blogGrid [Sample.seoPost; Sample.designPost] "design" "All"
  = BlogPage.filteredPosts [Sample.seoPost; Sample.designPost] "design" "All".
Proof.
  apply (no_featured_grid_is_filtered [Sample.seoPost; Sample.designPost]).
  intros post Hpost. rewrite !elem_of_cons, elem_of_nil in Hpost.
  by destruct Hpost as [->|[->|[]]].
Defined.

Lemma one_button_highlighted_witness :
  length
    (filter (λ c, BlogPageState.buttonVariant c
                    (BlogPageState.setActiveCategory "Design"
                       BlogPageState.initialState) = "default")
       (BlogPageState.categories [Sample.seoPost; Sample.designPost]))
  = 1%nat.
Proof.
  apply one_button_highlighted.
  - intros post Hpost. rewrite !elem_of_cons, elem_of_nil in Hpost.
    by destruct Hpost as [->|[->|[]]].
  - eapply rtc_l; [|apply rtc_refl].
    apply (BlogPageState.step_category _ _ "Design").
    vm_compute. right. right. by left.
Defined.

(** * Further properties of validation *)

Section Validation.
Implicit Types (t : ZodType) (shape : Shape) (data out : Obj).
Implicit Types (res : option Value).

Lemma mergeArray_imap_kept (f : nat → Value → ParseReturn) items vs :
  (∀ i item res, f i item = Valid res → res = Some item) →
  (∀ i item errs, f i item = Invalid errs → errs ≠ []) →
  mergeArray (imap f items) = ([], vs) → vs = items.
Proof.
  revert f vs. induction items as [|item items IH]; intros f vs Hkept Hne.
  { by intros [= <-]. }
  simpl. destruct (mergeArray (imap (f ∘ S) items)) as [errs vs'] eqn:Hrest.
  destruct (f 0 item) as [[v|]|errs0] eqn:Hitem.
  - intros [= -> <-]. apply Hkept in Hitem as [= ->]. f_equal.
    apply (IH (f ∘ S)); [by intros i ?? ?%Hkept..| |done].
    intros i ?? ?%Hne. done.
  - by apply Hkept in Hitem.
  - intros [= Happ _]. apply Hne in Hitem.
    by destruct errs0.
Qed.

(** Validation never rewrites a value that is there: no coercion, no
    default over a present value. *)
Lemma _parse_Some_kept t path v res :
  _parse t path (Some v) = Valid res → res = Some v.
Proof.
  revert path v res.
  induction t as [| |el IH|inner IH|inner IH d]; intros path v res; simpl.
  - destruct v; by inversion 1.
  - destruct v; by inversion 1.
  - destruct v as [| | | |items|]; try by inversion 1.
    destruct (mergeArray _) as [[|e errs] vs] eqn:Hmerge; [|by inversion 1].
    intros [= <-]. do 2 f_equal.
    eapply mergeArray_imap_kept; [| |exact Hmerge].
    + intros i item res. apply IH.
    + intros i item errs. apply _parse_Invalid_nonempty.
  - apply IH.
  - apply IH.
Qed.

Lemma _parse_idemp t path input res :
  _parse t path input = Valid res → _parse t path res = Valid res.
Proof.
  destruct input as [v|].
  { intros H. by pose proof (_parse_Some_kept _ _ _ _ H) as ->. }
  revert path res.
  induction t as [| |el IH|inner IH|inner IH d]; intros path res; simpl;
    try by inversion 1.
  intros H. by pose proof (_parse_Some_kept _ _ _ _ H) as ->.
Qed.

Lemma foldl_parseKey_valid data shape errs out :
  (∀ k t, (k, t) ∈ shape → ∃ v, _parse t [Key k] (data !! k) = Valid v) →
  (foldl (parseKey data) (errs, out) shape).1 = errs.
Proof.
  revert errs out. induction shape as [|[k t] shape IH]; intros errs out Hall;
    [done|].
  simpl. destruct (Hall k t) as [v ->]; [by left|].
  destruct v; apply IH; intros ?? ?; apply Hall; by right.
Qed.

(** A front matter is accepted exactly when every key of the shape
    parses. *)
Lemma safeParse_Success_iff shape data :
  (∃ out, safeParse shape data = Success out)
  ↔ ∀ k t, (k, t) ∈ shape → ∃ v, _parse t [Key k] (data !! k) = Valid v.
Proof.
  split.
  - intros [out Hs] k t Hin.
    destruct (_parse t [Key k] (data !! k)) as [v|errs0] eqn:Hp; [by exists v|].
    destruct (safeParse_invalid_key shape data k t errs0 Hin Hp)
      as (issues & Hf & _). congruence.
  - intros Hall. unfold safeParse, parseShape.
    pose proof (foldl_parseKey_valid data shape [] ∅ Hall) as Hfst.
    destruct (foldl _ _ _) as [errs out]. simpl in Hfst. subst errs.
    by exists out.
Qed.

(** Validation is idempotent: validated data validates to itself. *)
Lemma safeParse_idemp shape data out :
  NoDup shape.*1 →
  safeParse shape data = Success out → safeParse shape out = Success out.
Proof.
  intros Hnd Hs.
  assert (∀ k t, (k, t) ∈ shape →
                 _parse t [Key k] (out !! k) = Valid (out !! k)) as Hkeys.
  { intros k t Hin. eapply _parse_idemp.
    by eapply safeParse_Success_lookup. }
  destruct (safeParse_Failure_iff shape out)
    as [(issues & Hf & Hne & Hi)|(out' & Hs' & Hout)].
  - exfalso. apply Hne. rewrite <- Hi. unfold parseShape.
    apply foldl_parseKey_valid. intros k t Hin. eexists. by apply Hkeys.
  - rewrite Hs'. f_equal. apply map_eq. intros k.
    destruct (decide (k ∈ shape.*1)) as [Hk|Hk].
    + apply list_elem_of_fmap in Hk as ([k' t] & -> & Hin). simpl.
      pose proof (foldl_parseKey_lookup out shape [] ∅ k' t _ Hnd Hin
                    (Hkeys _ _ Hin)) as Hl.
      fold (parseShape shape out) in Hl. rewrite Hout in Hl. simpl in Hl.
      rewrite Hl. by destruct (out !! k').
    + rewrite (safeParse_Success_strip shape out out' k Hk Hs').
      symmetry. by eapply safeParse_Success_strip.
Qed.
End Validation.

(** * The contract of the [posts] schema *)

Section PostsContract.
Context {Context : Type}.
Variable compileMDX : Context -> Document -> option string.
Variable context : Context.

Local Abbreviation posts := (ContentCollections.posts compileMDX).
Local Abbreviation isStringValue := (λ item : Value, ∃ s, item = VStr s).

Lemma _parse_string_iff path input :
  (∃ v, _parse z.string path input = Valid v) ↔ isString input.
Proof.
  split.
  - intros [v Hv]. destruct input as [[]|]; try by inversion Hv.
    by eexists.
  - intros [s ->]. by eexists.
Qed.

Lemma _parse_boolean_iff path input :
  (∃ v, _parse z.boolean path input = Valid v)
  ↔ ∃ b, input = Some (VBool b).
Proof.
  split.
  - intros [v Hv]. destruct input as [[]|]; try by inversion Hv.
    by eexists.
  - intros [b ->]. by eexists.
Qed.

Lemma mergeArray_strings_iff (g : nat → list PathSeg) items :
  (mergeArray (imap (λ i v, _parse z.string (g i) (Some v)) items)).1 = []
  ↔ Forall isStringValue items.
Proof.
  revert g. induction items as [|item items IH]; intros g.
  { split; [constructor|done]. }
  rewrite Forall_cons, <- (IH (g ∘ S)). simpl.
  change (imap ((λ i v, _parse z.string (g i) (Some v)) ∘ S) items)
    with (imap (λ i v, _parse z.string ((g ∘ S) i) (Some v)) items).
  destruct (mergeArray _) as [errs vs]. simpl.
  destruct item; simpl;
    (split; [try done|try by intros [[s' [=]] _]]).
  - intros ->. split; [by eexists|done].
  - by intros [_ ->].
Qed.

Lemma _parse_strings_iff path input :
  (∃ v, _parse (z.array z.string) path input = Valid v)
  ↔ ∃ items, input = Some (VArr items) ∧ Forall isStringValue items.
Proof.
  split.
  - intros [v Hv]. destruct input as [[| | | |items|]|]; try by inversion Hv.
    exists items. split; [done|].
    apply (mergeArray_strings_iff (λ i, path ++ [Index i])).
    simpl in Hv. destruct (mergeArray _) as [[|e errs] vs]; [done|].
    by inversion Hv.
  - intros (items & -> & Hitems).
    apply (mergeArray_strings_iff (λ i, path ++ [Index i])) in Hitems.
    simpl. destruct (mergeArray _) as [errs vs]. simpl in Hitems.
    subst errs. by eexists.
Qed.

Lemma _parse_optional_iff t path input :
  (∃ v, _parse (z.optional t) path input = Valid v)
  ↔ input = None ∨ ∃ v, _parse t path input = Valid v.
Proof.
  destruct input as [x|]; simpl.
  - split; [by right|]. by intros [?|?].
  - split; [by left|]. intros _. by eexists.
Qed.

(** X13. The schema accepts a front matter exactly when the five required keys
    are strings, [tags] is absent or an array of strings, [image] is
    absent or a string, and [featured] is absent or a boolean. A key bound
    to [null] or to a value of another type is rejected: nothing is
    coerced. *)
Theorem posts_schema_accepts (frontMatter : Obj) :
  (∃ validated, safeParse (schema posts) frontMatter = Success validated)
  ↔ (∀ key, key ∈ ["title"; "description"; "date"; "author"; "category"] →
            isString (frontMatter !! key))
    ∧ (frontMatter !! "tags" = None
       ∨ ∃ items, frontMatter !! "tags" = Some (VArr items)
                  ∧ Forall isStringValue items)
    ∧ (frontMatter !! "image" = None ∨ isString (frontMatter !! "image"))
    ∧ (frontMatter !! "featured" = None
       ∨ ∃ b, frontMatter !! "featured" = Some (VBool b)).
Proof.
  rewrite safeParse_Success_iff. split.
  - intros Hall. split_and!.
    + intros key Hkey. apply (_parse_string_iff [Key key]), Hall.
      rewrite !elem_of_cons, elem_of_nil in Hkey.
      destruct Hkey as [->|[->|[->|[->|[->|[]]]]]]; repeat constructor.
    + destruct (frontMatter !! "tags") as [x|] eqn:Htags; [right|by left].
      apply (_parse_strings_iff [Key "tags"]).
      destruct (Hall "tags" (z.optional (z.array z.string))) as [v Hv];
        [repeat constructor|].
      rewrite Htags in Hv. by exists v.
    + destruct (frontMatter !! "image") as [x|] eqn:Himage; [right|by left].
      apply (_parse_string_iff [Key "image"]).
      destruct (Hall "image" (z.optional z.string)) as [v Hv];
        [repeat constructor|].
      rewrite Himage in Hv. by exists v.
    + destruct (frontMatter !! "featured") as [x|] eqn:Hf; [right|by left].
      apply (_parse_boolean_iff [Key "featured"]).
      destruct (Hall "featured"
                  (z.default (z.optional z.boolean) (VBool false)))
        as [v Hv]; [repeat constructor|].
      rewrite Hf in Hv. by exists v.
  - intros (Hrequired & Htags & Himage & Hfeatured) k t Hin.
    simpl in Hin. rewrite !elem_of_cons, elem_of_nil in Hin.
    destruct Hin as [[= -> ->]|[[= -> ->]|[[= -> ->]|[[= -> ->]|[[= -> ->]
      |[[= -> ->]|[[= -> ->]|[[= -> ->]|[]]]]]]]]].
    1-5: apply _parse_string_iff, Hrequired; repeat constructor.
    + apply _parse_optional_iff.
      destruct Htags as [?|?]; [by left|right]. by apply _parse_strings_iff.
    + apply _parse_optional_iff.
      destruct Himage as [?|?]; [by left|right]. by apply _parse_string_iff.
    + destruct Hfeatured as [->|[b ->]]; by eexists.
Qed.

(** X14. Validating a validated front matter changes nothing. *)
Theorem posts_validation_idempotent (frontMatter validated : Obj) :
  safeParse (schema posts) frontMatter = Success validated →
  safeParse (schema posts) validated = Success validated.
Proof. apply safeParse_idemp, posts_keys_NoDup. Qed.

(** X15. Every value that the front matter gives to a key of the schema is
    published unchanged: nothing is coerced, and the default of [featured]
    never replaces a value that is present. *)
Theorem front_matter_values_kept source record key v :
  key ∈ (schema posts).*1 →
  Pipeline.frontMatter source !! key = Some v →
  Pipeline.parse posts context source = inr record →
  record !! key = Some v.
Proof.
  intros Hkey Hv Hparse.
  apply list_elem_of_fmap in Hkey as ([k t] & -> & Hin). simpl in Hv |- *.
  pose proof (parse_field compileMDX context source record k t Hin Hparse)
    as Hfield.
  rewrite Hv in Hfield. by apply _parse_Some_kept in Hfield.
Qed.

(** X16. The front matter cannot set the derived fields, and its keys outside
    the schema are dropped: the record's [slug], [url], [content] and
    [_meta] come from the file alone, and the record binds no key besides
    the schema's and [content], [_meta], [mdx], [slug], [url]. *)
Theorem derived_fields_from_file source record :
  Pipeline.parse posts context source = inr record →
  record !! "slug" = Some (VStr (path (Pipeline.source_meta source)))
  ∧ record !! "url"
    = Some (VStr ("/blog/" +:+ path (Pipeline.source_meta source)))
  ∧ record !! "content" = Some (VStr (Pipeline.body source))
  ∧ record !! "_meta" = Some (metaValue (Pipeline.source_meta source))
  ∧ isString (record !! "mdx")
  ∧ ∀ key,
      key ∉ (schema posts).*1 ++ ["content"; "_meta"; "mdx"; "slug"; "url"] →
      record !! key = None.
Proof.
  intros (validated & Hs & Ht)%parse_inr.
  apply transform_Some in Ht as (mdx & _ & ->). unfold spread. simpl.
  split_and!.
  - by rewrite lookup_insert_ne, lookup_insert_eq.
  - by rewrite lookup_insert_eq.
  - rewrite !(lookup_insert_ne _ _ "content") by done.
    by rewrite lookup_insert_eq.
  - rewrite !(lookup_insert_ne _ _ "_meta") by done.
    by rewrite lookup_insert_eq.
  - rewrite !(lookup_insert_ne _ _ "mdx") by done.
    rewrite lookup_insert_eq. by eexists.
  - intros key Hkey. rewrite !not_elem_of_cons in Hkey.
    destruct Hkey as (? & ? & ? & ? & ? & ? & ? & ? & ? & ? & ? & ? & ? & _).
    rewrite !lookup_insert_ne by done.
    eapply safeParse_Success_strip; [|exact Hs].
    simpl. rewrite !not_elem_of_cons. split_and!; try done.
    apply not_elem_of_nil.
Qed.

(** X17. The fields of a published record have the types the page relies on:
    the five required fields, [mdx], [slug] and [url] are strings
    (so [post.title.toLowerCase()] is defined), [featured] is a boolean,
    [tags] is absent or an array of strings and [image] is absent or a
    string. *)
Theorem published_fields_typed source record :
  Pipeline.parse posts context source = inr record →
  (∀ key,
     key ∈ ["title"; "description"; "date"; "author"; "category";
            "mdx"; "slug"; "url"] →
     isString (record !! key))
  ∧ (∃ b, record !! "featured" = Some (VBool b))
  ∧ (record !! "tags" = None
     ∨ ∃ items, record !! "tags" = Some (VArr items)
                ∧ Forall isStringValue items)
  ∧ (record !! "image" = None ∨ isString (record !! "image")).
Proof.
  intros Hparse.
  pose proof (λ key t Hin, parse_field compileMDX context source record
                             key t Hin Hparse) as Hfield.
  assert (∀ key t, (key, t) ∈ schema posts →
            ∃ v, _parse t [Key key] (record !! key) = Valid v) as Hvalid.
  { intros key t Hin. eexists. eapply _parse_idemp. by apply Hfield. }
  split_and!.
  - intros key Hkey. rewrite !elem_of_cons, elem_of_nil in Hkey.
    destruct Hkey as [->|[->|[->|[->|[->|Hderived]]]]];
      [apply (_parse_string_iff [Key "title"])
      |apply (_parse_string_iff [Key "description"])
      |apply (_parse_string_iff [Key "date"])
      |apply (_parse_string_iff [Key "author"])
      |apply (_parse_string_iff [Key "category"])|];
      [apply Hvalid; repeat constructor..|].
    apply parse_inr in Hparse as (validated & _ & Ht).
    apply transform_Some in Ht as (mdx & _ & ->).
    destruct Hderived as [->|[->|[->|[]]]].
    + rewrite !(lookup_insert_ne _ _ "mdx") by done.
      rewrite lookup_insert_eq. by eexists.
    + rewrite lookup_insert_ne, lookup_insert_eq by done. by eexists.
    + rewrite lookup_insert_eq. by eexists.
  - pose proof (Hfield "featured"
                  (z.default (z.optional z.boolean) (VBool false))) as Hf.
    ospecialize (Hf _); [repeat constructor|].
    destruct (Pipeline.frontMatter source !! "featured") as [x|].
    + pose proof (_parse_Some_kept _ _ _ _ Hf) as Hkept.
      rewrite Hkept in Hf |- *.
      apply (_parse_boolean_iff [Key "featured"] (Some x)).
      by exists (Some x).
    + injection Hf as <-. by eexists.
  - destruct (Hvalid "tags" (z.optional (z.array z.string))) as [v Hv];
      [repeat constructor|].
    destruct (record !! "tags") as [x|]; [right|by left].
    apply (_parse_strings_iff [Key "tags"] (Some x)). by eexists.
  - destruct (Hvalid "image" (z.optional z.string)) as [v Hv];
      [repeat constructor|].
    destruct (record !! "image") as [x|]; [right|by left].
    apply (_parse_string_iff [Key "image"] (Some x)). by eexists.
Qed.
End PostsContract.

(** Instances on the sample content. *)

Lemma posts_validation_idempotent_witness :
  ∃ validated,
    safeParse (schema Sample.posts)
      (<["draft" := VBool true]> Sample.apiDesignFrontMatter)
    = Success validated
    ∧ safeParse (schema Sample.posts) validated = Success validated.
Proof.
  eexists. split; [by vm_compute|].
  apply (posts_validation_idempotent Sample.compileMDX
           (<["draft" := VBool true]> Sample.apiDesignFrontMatter)).
  by vm_compute.
Defined.

Lemma front_matter_values_kept_witness :
  ∃ record,
    Pipeline.parse Sample.posts tt
      (Pipeline.mkSource (Sample.meta "launch")
         (<["featured" := VBool true]> Sample.apiDesignFrontMatter) "# Launch")
    = inr record
    ∧ record !! "featured" = Some (VBool true).
Proof.
  eexists. split; [by vm_compute|].
  eapply (front_matter_values_kept Sample.compileMDX tt
            (Pipeline.mkSource (Sample.meta "launch")
               (<["featured" := VBool true]> Sample.apiDesignFrontMatter)
               "# Launch")).
  - vm_compute. do 7 right. by left.
  - reflexivity.
  - by vm_compute.
Defined.

Lemma derived_fields_from_file_witness :
  ∃ record,
    Pipeline.parse Sample.posts tt
      (Pipeline.mkSource (Sample.meta "launch")
         (<["slug" := VStr "custom"]>
            (<["draft" := VBool true]> Sample.apiDesignFrontMatter))
         "# Launch")
    = inr record
    ∧ record !! "slug" = Some (VStr "launch")
    ∧ record !! "url" = Some (VStr "/blog/launch")
    ∧ record !! "draft" = None.
Proof.
  destruct (Pipeline.parse Sample.posts tt _) as [error|record] eqn:Hparse;
    [by vm_compute in Hparse|].
  exists record. split; [done|].
  destruct (derived_fields_from_file Sample.compileMDX tt _ _ Hparse)
    as (Hslug & Hurl & _ & _ & _ & Hother).
  split_and!; [exact Hslug|exact Hurl|].
  apply Hother. apply (bool_decide_unpack _). by vm_compute.
Defined.

Lemma published_fields_typed_witness :
  ∃ record,
    Pipeline.parse Sample.posts tt Sample.bare = inr record
    ∧ isString (record !! "title")
    ∧ ∃ b, record !! "featured" = Some (VBool b).
Proof.
  destruct (Pipeline.parse Sample.posts tt Sample.bare) as [error|record]
    eqn:Hparse; [by vm_compute in Hparse|].
  exists record. split; [done|].
  destruct (published_fields_typed Sample.compileMDX tt Sample.bare _ Hparse)
    as (Hstrings & Hfeatured & _).
  split; [|exact Hfeatured].
  apply Hstrings. by left.
Defined.
